(** * Matchmaking and signaling relay of [server.js]

    A shallow embedding of the matchmaking queue, the active pair table,
    the two helper functions [pairUsers] and [removeUser] and the
    socket event handlers of [src/server.js], followed by the properties
    proved about them.

    The two module-level variables [waitingQueue] and [activePairs] become
    fields of an explicit [State] that every function takes and returns.
    What the server tells its clients ([socket.emit], [io.to(id).emit]) is
    recorded in order in the [emitted] field.  The map of connected sockets
    kept by the transport library ([io.sockets.sockets]) is the [sockets]
    field.  Calls of [console.log] only write diagnostics and are left out. *)

From Stdlib Require QArith.QArith_base.
From stdpp Require Import gmap strings list fin_maps.

Open Scope string_scope.
Open Scope list_scope.

(** ** Values carried by events *)

(** The payloads that clients send and receive.  Numbers are the
    integer-valued ones ([Date.now()] is an integer count of milliseconds). *)
#[local] Unset Elimination Schemes.
Inductive JSValue : Type :=
| VUndefined
| VNull
| VBool (b : bool)
| VNum (n : Z)
| VStr (s : string)
| VArr (items : list JSValue)
| VObj (fields : list (string * JSValue)).
#[local] Set Elimination Schemes.

(** How the evaluation of a handler ends: normally, or with the [TypeError]
    that reading a property of [undefined] or [null] throws. *)
Inductive Completion : Type :=
| Normal
| TypeError.

Fixpoint own_field (key : string) (fields : list (string * JSValue)) : JSValue :=
  match fields with
  | [] => VUndefined
  | (k, v) :: rest => if String.eqb k key then v else own_field key rest
  end.

(** [data.key]: [None] stands for the [TypeError] on [undefined] and [null];
    a missing property reads as [undefined].  The handlers read only the
    names [offer], [answer], [candidate] and [message], none of which is a
    built-in property of a string, number, boolean or array. *)
Definition get_prop (data : JSValue) (key : string) : option JSValue :=
  match data with
  | VUndefined | VNull => None
  | VObj fields => Some (own_field key fields)
  | _ => Some VUndefined
  end.

(** ** Sockets, emitted events and the server state *)

(** A connected client, as the handlers see it: [socket.id]. *)
Record Socket : Type := mkSocket { id : string }.

(** One call of an emit function: [socket.emit(event, payload)] on a socket
    object, or [io.to(room).emit(event, payload)] on the room named after a
    socket identifier.  [payload] is [None] when the call passes no
    argument after the event name. *)
Inductive Emit : Type :=
| SocketEmit (target : string) (event : string) (payload : option JSValue)
| RoomEmit (room : string) (event : string) (payload : option JSValue).

Record State : Type := mkState {
  waitingQueue : list Socket;          (* let waitingQueue = [] *)
  activePairs : gmap string string;    (* let activePairs = new Map() *)
  sockets : gset string;               (* keys of io.sockets.sockets *)
  emitted : list Emit                  (* emit calls so far, oldest first *)
}.

Definition initial : State :=
  {| waitingQueue := []; activePairs := ∅; sockets := ∅; emitted := [] |}.

Definition set_waitingQueue (q : list Socket) (s : State) : State :=
  {| waitingQueue := q; activePairs := activePairs s;
     sockets := sockets s; emitted := emitted s |}.

Definition set_activePairs (m : gmap string string) (s : State) : State :=
  {| waitingQueue := waitingQueue s; activePairs := m;
     sockets := sockets s; emitted := emitted s |}.

Definition set_sockets (c : gset string) (s : State) : State :=
  {| waitingQueue := waitingQueue s; activePairs := activePairs s;
     sockets := c; emitted := emitted s |}.

Definition emit (e : Emit) (s : State) : State :=
  {| waitingQueue := waitingQueue s; activePairs := activePairs s;
     sockets := sockets s; emitted := emitted s ++ [e] |}.

(** [io.sockets.sockets.get(socketId)]: the socket registered under that
    identifier, if it is still connected. *)
Definition sockets_get (socketId : string) (s : State) : option Socket :=
  if decide (socketId ∈ sockets s) then Some (mkSocket socketId) else None.

(** [if (partnerId)]: a string is truthy unless it is empty. *)
Definition truthy (partnerId : string) : bool := negb (String.eqb partnerId "").

(** ** The active pair table *)

(** [activePairs.get(id)] *)
Definition get_partner (socketId : string) (m : gmap string string) : option string :=
  m !! socketId.

(** Lines 49-50: [activePairs.set(a, b); activePairs.set(b, a)] *)
Definition insert_pair (a b : string) (m : gmap string string) : gmap string string :=
  <[b := a]> (<[a := b]> m).

(** Lines 68-69 and 78-79, the table part of [removeUser]: the partner that
    was found, and the table without the two entries. *)
Definition remove (socketId : string) (m : gmap string string)
  : option string * gmap string string :=
  match m !! socketId with
  | Some partnerId => (Some partnerId, delete partnerId (delete socketId m))
  | None => (None, m)
  end.

(** ** Helper functions *)

Definition paired_payload (partner : Socket) : option JSValue :=
  Some (VObj [("partnerId", VStr (id partner))]).

(** The loop of [pairUsers], on the queue it still has to look at. *)
Fixpoint pairUsers_loop (queue : list Socket) (s : State) : State :=
  match queue with
  | user1 :: user2 :: rest =>
      let s := set_waitingQueue rest s in
      let s := set_activePairs (insert_pair (id user1) (id user2) (activePairs s)) s in
      let s := emit (SocketEmit (id user1) "paired" (paired_payload user2)) s in
      let s := emit (SocketEmit (id user2) "paired" (paired_payload user1)) s in
      pairUsers_loop rest s
  | _ => s
  end.

Definition pairUsers (s : State) : State := pairUsers_loop (waitingQueue s) s.

Definition removeUser (socketId : string) (s : State) : State :=
  let s := set_waitingQueue
             (filter (λ user, id user ≠ socketId) (waitingQueue s)) s in
  match activePairs s !! socketId with
  | Some partnerId =>
      let s := match sockets_get partnerId s with
               | Some partnerSocket =>
                   emit (SocketEmit (id partnerSocket) "partner-disconnected" None) s
               | None => s
               end in
      let s := set_activePairs (delete socketId (activePairs s)) s in
      set_activePairs (delete partnerId (activePairs s)) s
  | None => s
  end.

(** [waitingQueue.push(socket)] *)
Definition enqueue (socket : Socket) (s : State) : State :=
  set_waitingQueue (waitingQueue s ++ [socket]) s.

(** ** Event handlers *)

Definition on_start_search (socket : Socket) (s : State) : State :=
  let s := removeUser (id socket) s in
  let s := enqueue socket s in
  let s := emit (SocketEmit (id socket) "searching" None) s in
  pairUsers s.

(** The three negotiation handlers differ only in the event name and in the
    name of the field they copy. *)
Definition relay_negotiation (event field : string)
    (socket : Socket) (data : JSValue) (s : State) : State * Completion :=
  match get_partner (id socket) (activePairs s) with
  | Some partnerId =>
      if truthy partnerId then
        match get_prop data field with
        | Some value =>
            (emit (RoomEmit partnerId event
                     (Some (VObj [(field, value); ("from", VStr (id socket))]))) s,
             Normal)
        | None => (s, TypeError)
        end
      else (s, Normal)
  | None => (s, Normal)
  end.

Definition on_offer := relay_negotiation "offer" "offer".
Definition on_answer := relay_negotiation "answer" "answer".
Definition on_ice_candidate := relay_negotiation "ice-candidate" "candidate".

(** [now] is the value of [Date.now()] when the handler runs. *)
Definition on_chat_message (now : Z)
    (socket : Socket) (data : JSValue) (s : State) : State * Completion :=
  match get_partner (id socket) (activePairs s) with
  | Some partnerId =>
      if truthy partnerId then
        match get_prop data "message" with
        | Some message =>
            (emit (RoomEmit partnerId "chat-message"
                     (Some (VObj [("message", message);
                                  ("from", VStr "Stranger");
                                  ("timestamp", VNum now)]))) s,
             Normal)
        | None => (s, TypeError)
        end
      else (s, Normal)
  | None => (s, Normal)
  end.

Definition on_next (socket : Socket) (s : State) : State :=
  let s := removeUser (id socket) s in
  let s := enqueue socket s in
  let s := emit (SocketEmit (id socket) "searching" None) s in
  pairUsers s.

Definition on_stop_search (socket : Socket) (s : State) : State :=
  removeUser (id socket) s.

Definition on_disconnect (socket : Socket) (s : State) : State :=
  removeUser (id socket) s.

(** ** Runs of the server *)

(** What can happen to the state: a call of one of the two helper functions,
    or one inbound event, handled to completion.  For [Connection] and
    [Disconnect] the transport library updates its map of sockets before it
    calls the handler; the connection handler itself only registers the
    other handlers. *)
Inductive Op : Type :=
| CallPairUsers
| CallRemoveUser (socketId : string)
| Connection (socket : Socket)
| StartSearch (socket : Socket)
| Offer (socket : Socket) (data : JSValue)
| Answer (socket : Socket) (data : JSValue)
| IceCandidate (socket : Socket) (data : JSValue)
| ChatMessage (now : Z) (socket : Socket) (data : JSValue)
| Next (socket : Socket)
| StopSearch (socket : Socket)
| Disconnect (socket : Socket).

(** The state in which an operation leaves the server, and how it ended. *)
Definition exec (o : Op) (s : State) : State * Completion :=
  match o with
  | CallPairUsers => (pairUsers s, Normal)
  | CallRemoveUser socketId => (removeUser socketId s, Normal)
  | Connection socket => (set_sockets ({[id socket]} ∪ sockets s) s, Normal)
  | StartSearch socket => (on_start_search socket s, Normal)
  | Offer socket data => on_offer socket data s
  | Answer socket data => on_answer socket data s
  | IceCandidate socket data => on_ice_candidate socket data s
  | ChatMessage now socket data => on_chat_message now socket data s
  | Next socket => (on_next socket s, Normal)
  | StopSearch socket => (on_stop_search socket s, Normal)
  | Disconnect socket =>
      (on_disconnect socket (set_sockets (sockets s ∖ {[id socket]}) s), Normal)
  end.

(** The observation points: the states between two operations, for any
    sequence of operations on any sockets. *)
Inductive reachable : State → Prop :=
| reachable_initial : reachable initial
| reachable_exec o s : reachable s → reachable (exec o s).1.

(** What the transport library guarantees about the operations it triggers:
    a new socket gets a fresh, non-empty identifier, and only a connected
    socket delivers events. *)
Definition admissible (o : Op) (s : State) : Prop :=
  match o with
  | CallPairUsers | CallRemoveUser _ => True
  | Connection socket => id socket ≠ "" ∧ id socket ∉ sockets s
  | StartSearch socket | Offer socket _ | Answer socket _
  | IceCandidate socket _ | ChatMessage _ socket _
  | Next socket | StopSearch socket | Disconnect socket => id socket ∈ sockets s
  end.

(** The observation points of a run under the transport library. *)
Inductive live : State → Prop :=
| live_initial : live initial
| live_exec o s : live s → admissible o s → live (exec o s).1.

(** ** Invariants *)

(** The active pair table is symmetric. *)
Definition symmetric (m : gmap string string) : Prop :=
  ∀ a b, m !! a = Some b → m !! b = Some a.

(** No session waits and is paired at once. *)
Definition waiting_not_paired (s : State) : Prop :=
  ∀ user, user ∈ waitingQueue s → activePairs s !! id user = None.

Record consistent (s : State) : Prop := mkConsistent {
  queue_nodup : NoDup (id <$> waitingQueue s);
  queue_unpaired : waiting_not_paired s;
  pairs_symmetric : symmetric (activePairs s);
  pairs_irreflexive : ∀ a, activePairs s !! a ≠ Some a;
  pairs_even : Nat.Even (size (activePairs s))
}.

(** Every session the two structures mention is connected, and no
    identifier is the empty string. *)
Record registered (s : State) : Prop := mkRegistered {
  ids_nonempty : "" ∉ sockets s;
  queue_connected : ∀ user, user ∈ waitingQueue s → id user ∈ sockets s;
  pairs_connected : ∀ a b, activePairs s !! a = Some b → a ∈ sockets s
}.

(** ** Auxiliary definitions for the statements *)

(** The notification that [removeUser] sends, if any. *)
Definition farewell (socketId : string) (s : State) : list Emit :=
  match activePairs s !! socketId with
  | Some partnerId =>
      if decide (partnerId ∈ sockets s)
      then [SocketEmit partnerId "partner-disconnected" None]
      else []
  | None => []
  end.

(** The [paired] notifications of one run of the loop, in the order in
    which they are emitted. *)
Fixpoint paired_events (queue : list Socket) : list Emit :=
  match queue with
  | user1 :: user2 :: rest =>
      SocketEmit (id user1) "paired" (paired_payload user2)
      :: SocketEmit (id user2) "paired" (paired_payload user1)
      :: paired_events rest
  | _ => []
  end.

(** The table after one run of the loop. *)
Fixpoint paired_table (queue : list Socket) (m : gmap string string)
  : gmap string string :=
  match queue with
  | user1 :: user2 :: rest => paired_table rest (insert_pair (id user1) (id user2) m)
  | _ => m
  end.

(** The composition that the specification names for [next] and for
    [start-search]: [leave(id)], then [enqueue(session)], then
    [try_pair_all()]. *)
Definition leave_enqueue_pair (socket : Socket) (s : State) : State :=
  pairUsers (enqueue socket (removeUser (id socket) s)).

(** Two states with the same waiting queue and the same active pair table. *)
Definition same_matchmaking (s s' : State) : Prop :=
  waitingQueue s' = waitingQueue s ∧ activePairs s' = activePairs s.

(** ** The health check route *)

(** The [users] object of the response of [GET /status]. *)
Record StatusUsers : Type := mkStatusUsers {
  waiting : nat;     (* waitingQueue.length *)
  active : QArith_base.Q   (* activePairs.size / 2, a division of numbers *)
}.

(** The body that [GET /status] sends.  [now_iso] is the value of
    [new Date().toISOString()] when the route runs. *)
Record StatusBody : Type := mkStatusBody {
  status : string;
  users : StatusUsers;
  timestamp : string
}.

(** Lines 195-204.  The route reads the two structures and writes neither. *)
Definition get_status (now_iso : string) (s : State) : StatusBody :=
  {| status := "online";
     users := {| waiting := length (waitingQueue s);
                 active := QArith_base.Qmake (Z.of_nat (size (activePairs s))) 2 |};
     timestamp := now_iso |}.

(** ** Who takes part in the matchmaking *)

(** The identifiers of the sessions that wait or are paired. *)
Definition sessions (s : State) : gset string :=
  list_to_set (id <$> waitingQueue s) ∪ dom (activePairs s).

(** The identifiers that the table holds as someone's partner. *)
Definition partners (s : State) : gset string :=
  map_img (activePairs s).

(** The payloads on which reading a property throws. *)
Definition nullish (data : JSValue) : bool :=
  match data with
  | VUndefined | VNull => true
  | _ => false
  end.

(** Whether the sender passes the guard [if (partnerId)] of a relay
    handler. *)
Definition has_truthy_partner (socket : Socket) (s : State) : bool :=
  match get_partner (id socket) (activePairs s) with
  | Some partnerId => truthy partnerId
  | None => false
  end.

(** ** Sample runs *)

Definition alice : Socket := mkSocket "A".
Definition bob : Socket := mkSocket "B".
Definition carol : Socket := mkSocket "C".

(** [alice] and [bob] connect and start searching, in this order. *)
Definition run_paired : State :=
  (exec (StartSearch bob)
     (exec (StartSearch alice)
        (exec (Connection bob)
           (exec (Connection alice) initial).1).1).1).1.

(** Then [carol] connects and starts searching. *)
Definition run_three : State :=
  (exec (StartSearch carol) (exec (Connection carol) run_paired).1).1.

(** Three sessions in the queue, nobody paired yet. *)
Definition three_waiting : State :=
  {| waitingQueue := [alice; bob; carol]; activePairs := ∅;
     sockets := {["A"; "B"; "C"]}; emitted := [] |}.

(** * Properties *)

(** ** What [removeUser] does to each part of the state *)

Lemma removeUser_waitingQueue socketId s :
  waitingQueue (removeUser socketId s)
  = filter (λ user, id user ≠ socketId) (waitingQueue s).
Proof.
  unfold removeUser; simpl.
  destruct (activePairs s !! socketId) as [partnerId|]; [|done].
  unfold sockets_get; simpl. by case_decide.
Qed.

Lemma removeUser_activePairs socketId s :
  activePairs (removeUser socketId s) = (remove socketId (activePairs s)).2.
Proof.
  unfold removeUser, remove; simpl.
  destruct (activePairs s !! socketId) as [partnerId|]; [|done].
  unfold sockets_get; simpl. by case_decide.
Qed.

Lemma removeUser_sockets socketId s :
  sockets (removeUser socketId s) = sockets s.
Proof.
  unfold removeUser; simpl.
  destruct (activePairs s !! socketId) as [partnerId|]; [|done].
  unfold sockets_get; simpl. by case_decide.
Qed.

Lemma removeUser_emitted socketId s :
  emitted (removeUser socketId s) = emitted s ++ farewell socketId s.
Proof.
  unfold removeUser, farewell; simpl.
  destruct (activePairs s !! socketId) as [partnerId|];
    [|by rewrite app_nil_r].
  unfold sockets_get; simpl. case_decide; simpl; [done|by rewrite app_nil_r].
Qed.

Lemma State_eq (s1 s2 : State) :
  waitingQueue s1 = waitingQueue s2 →
  activePairs s1 = activePairs s2 →
  sockets s1 = sockets s2 →
  emitted s1 = emitted s2 →
  s1 = s2.
Proof. destruct s1, s2; simpl; congruence. Qed.

Lemma filter_twice {A} (P : A → Prop) `{∀ x, Decision (P x)} (l : list A) :
  filter P (filter P l) = filter P l.
Proof.
  induction l as [|x l IH]; [done|].
  rewrite filter_cons. case_decide; [|done].
  rewrite filter_cons_True by done. by rewrite IH.
Qed.

Lemma remove_absent socketId (m : gmap string string) :
  m !! socketId = None → remove socketId m = (None, m).
Proof. unfold remove. by intros ->. Qed.

Lemma remove_present socketId partnerId (m : gmap string string) :
  m !! socketId = Some partnerId →
  remove socketId m = (Some partnerId, delete partnerId (delete socketId m)).
Proof. unfold remove. by intros ->. Qed.

Lemma remove_lookup_self socketId (m : gmap string string) :
  (remove socketId m).2 !! socketId = None.
Proof.
  unfold remove. destruct (m !! socketId) as [partnerId|] eqn:E; simpl; [|done].
  rewrite lookup_delete. case_decide; [done|apply lookup_delete_eq].
Qed.

Lemma removeUser_lookup_self socketId s :
  activePairs (removeUser socketId s) !! socketId = None.
Proof. rewrite removeUser_activePairs. apply remove_lookup_self. Qed.

Lemma farewell_absent socketId s :
  activePairs s !! socketId = None → farewell socketId s = [].
Proof. unfold farewell. by intros ->. Qed.

(** ** What the loop of [pairUsers] does to each part of the state *)

(** Induction on a list, two elements at a time. *)
Lemma list_pair_ind {A} (P : list A → Prop) :
  P [] → (∀ x, P [x]) → (∀ x y l, P l → P (x :: y :: l)) → ∀ l, P l.
Proof.
  intros Hnil Hone Hstep.
  assert (∀ l, P l ∧ ∀ x, P (x :: l)) as Hboth.
  { induction l as [|y l [IH1 IH2]]; [by split|]. split; [apply IH2|]. 
    intros x. by apply Hstep. }
  intros l. apply Hboth.
Qed.

(** Taking two elements off a list takes one off the number of pairs. *)
Lemma double_half_step n : 2 * (S (S n) / 2) = S (S (2 * (n / 2))).
Proof.
  replace (S (S n)) with (1 * 2 + n) by lia.
  rewrite Nat.div_add_l by lia. lia.
Qed.

Lemma pairUsers_loop_sockets queue s :
  sockets (pairUsers_loop queue s) = sockets s.
Proof.
  revert s. induction queue as [| |user1 user2 rest IH] using list_pair_ind;
    intros s; [done..|].
  simpl. by rewrite IH.
Qed.

Lemma pairUsers_loop_waitingQueue queue s :
  waitingQueue s = queue →
  waitingQueue (pairUsers_loop queue s) = drop (2 * (length queue / 2)) queue.
Proof.
  revert s. induction queue as [| |user1 user2 rest IH] using list_pair_ind;
    intros s Hq; [done..|].
  cbn [pairUsers_loop length]. rewrite IH by done.
  by rewrite double_half_step.
Qed.

Lemma pairUsers_loop_emitted queue s :
  emitted (pairUsers_loop queue s) = emitted s ++ paired_events queue.
Proof.
  revert s. induction queue as [| |user1 user2 rest IH] using list_pair_ind;
    intros s; [by rewrite app_nil_r..|].
  cbn [pairUsers_loop paired_events]. rewrite IH. simpl.
  by rewrite <- !app_assoc.
Qed.

Lemma pairUsers_loop_activePairs queue s :
  activePairs (pairUsers_loop queue s) = paired_table queue (activePairs s).
Proof.
  revert s. induction queue as [| |user1 user2 rest IH] using list_pair_ind;
    intros s; [done..|].
  cbn [pairUsers_loop paired_table]. by rewrite IH.
Qed.

Lemma paired_events_length queue :
  length (paired_events queue) = 2 * (length queue / 2).
Proof.
  induction queue as [| |user1 user2 rest IH] using list_pair_ind; [done..|].
  cbn [paired_events length]. rewrite IH, double_half_step. lia.
Qed.

Lemma paired_events_lookup queue k user1 user2 :
  queue !! (2 * k) = Some user1 →
  queue !! (2 * k + 1) = Some user2 →
  paired_events queue !! (2 * k)
    = Some (SocketEmit (id user1) "paired" (paired_payload user2))
  ∧ paired_events queue !! (2 * k + 1)
    = Some (SocketEmit (id user2) "paired" (paired_payload user1)).
Proof.
  revert queue. induction k as [|k IH]; intros [|a [|b rest]] H1 H2;
    try discriminate.
  - simpl in *. by simplify_eq.
  - replace (2 * S k) with (S (S (2 * k))) in * by lia.
    simpl in H1, H2. cbn [paired_events]. simpl. by apply IH.
Qed.

Lemma paired_table_other queue (m : gmap string string) x :
  x ∉ id <$> take (2 * (length queue / 2)) queue →
  paired_table queue m !! x = m !! x.
Proof.
  revert m. induction queue as [| |user1 user2 rest IH] using list_pair_ind;
    intros m Hx; [done..|].
  cbn [length] in Hx. rewrite double_half_step in Hx.
  cbn [take fmap list_fmap] in Hx. apply not_elem_of_cons in Hx as [Hx1 Hx].
  apply not_elem_of_cons in Hx as [Hx2 Hx].
  cbn [paired_table]. rewrite IH by done.
  unfold insert_pair. by rewrite !lookup_insert_ne.
Qed.

Lemma paired_table_lookup queue (m : gmap string string) k user1 user2 :
  NoDup (id <$> queue) →
  queue !! (2 * k) = Some user1 →
  queue !! (2 * k + 1) = Some user2 →
  paired_table queue m !! id user1 = Some (id user2)
  ∧ paired_table queue m !! id user2 = Some (id user1).
Proof.
  revert queue m. induction k as [|k IH]; intros [|a [|b rest]] m Hnd H1 H2;
    try discriminate.
  - simpl in *. simplify_eq.
    apply NoDup_cons in Hnd as [Ha Hnd]. apply NoDup_cons in Hnd as [Hb _].
    apply not_elem_of_cons in Ha as [Hab Ha].
    assert (∀ x, x ∉ id <$> rest →
                 x ∉ id <$> take (2 * (length rest / 2)) rest) as Hsub.
    { intros x Hx Hin. apply Hx.
      apply list_elem_of_fmap in Hin as (u & -> & Hu).
      apply list_elem_of_fmap_2. by eapply subseteq_take. }
    rewrite !paired_table_other by auto. unfold insert_pair.
    rewrite lookup_insert_ne by done. by rewrite !lookup_insert_eq.
  - replace (2 * S k) with (S (S (2 * k))) in * by lia.
    simpl in H1, H2. cbn [paired_table].
    apply NoDup_cons in Hnd as [_ Hnd]. apply NoDup_cons in Hnd as [_ Hnd].
    by apply IH.
Qed.

(** ** The consistency invariant *)

Lemma consistent_initial : consistent initial.
Proof.
  split; simpl.
  - constructor.
  - intros user Hin. by apply elem_of_nil in Hin.
  - intros a b Hab. by rewrite lookup_empty in Hab.
  - intros a. by rewrite lookup_empty.
  - rewrite map_size_empty. by exists 0.
Qed.

Lemma consistent_frame s s' :
  waitingQueue s' = waitingQueue s →
  activePairs s' = activePairs s →
  consistent s → consistent s'.
Proof.
  intros Hq Hm [H1 H2 H3 H4 H5].
  split; unfold waiting_not_paired; rewrite ?Hq, ?Hm; auto.
Qed.

Lemma NoDup_ids_filter (P : Socket → Prop) `{∀ x, Decision (P x)} queue :
  NoDup (id <$> queue) → NoDup (id <$> filter P queue).
Proof.
  induction queue as [|user rest IH]; [done|].
  rewrite fmap_cons, NoDup_cons. intros [Hnotin Hnd].
  rewrite filter_cons. case_decide; [|by apply IH].
  rewrite fmap_cons, NoDup_cons. split; [|by apply IH].
  intros Hin. apply Hnotin.
  apply list_elem_of_fmap in Hin as (u & -> & Hu).
  apply list_elem_of_fmap_2. by apply list_elem_of_filter in Hu as [_ Hu].
Qed.

Lemma remove_lookup_Some socketId (m : gmap string string) a b :
  (remove socketId m).2 !! a = Some b → m !! a = Some b.
Proof.
  unfold remove. destruct (m !! socketId) as [partnerId|]; simpl; [|done].
  intros Hab. apply lookup_delete_Some in Hab as [_ Hab].
  by apply lookup_delete_Some in Hab as [_ Hab].
Qed.

Lemma remove_lookup_None socketId (m : gmap string string) a :
  m !! a = None → (remove socketId m).2 !! a = None.
Proof.
  intros Ha. destruct ((remove socketId m).2 !! a) as [b|] eqn:E; [|done].
  apply remove_lookup_Some in E. congruence.
Qed.

Lemma remove_symmetric socketId (m : gmap string string) :
  symmetric m → symmetric (remove socketId m).2.
Proof.
  intros Hsym a b Hab.
  pose proof (remove_lookup_Some _ _ _ _ Hab) as Hm.
  unfold remove in *. destruct (m !! socketId) as [partnerId|] eqn:E;
    simpl in *; [|by apply Hsym].
  apply lookup_delete_Some in Hab as [Hap Hab].
  apply lookup_delete_Some in Hab as [Hai _].
  pose proof (Hsym _ _ E) as E'. pose proof (Hsym _ _ Hm) as Hm'.
  rewrite !lookup_delete_ne; [done|intros <-; congruence..].
Qed.

Lemma remove_even socketId (m : gmap string string) :
  symmetric m → (∀ a, m !! a ≠ Some a) →
  Nat.Even (size m) → Nat.Even (size (remove socketId m).2).
Proof.
  intros Hsym Hirr Hev. unfold remove.
  destruct (m !! socketId) as [partnerId|] eqn:E; simpl; [|done].
  assert (partnerId ≠ socketId) as Hne by (intros ->; by eapply Hirr).
  pose proof (Hsym _ _ E) as E'.
  assert (size m = S (S (size (delete partnerId (delete socketId m))))) as Hsz.
  { rewrite (map_size_delete_Some partnerId)
      by (rewrite lookup_delete_ne by done; eauto).
    rewrite (map_size_delete_Some socketId) by eauto.
    assert (size m ≠ 0) by (intros ?%map_size_empty_inv; by subst).
    assert (size (delete socketId m) ≠ 0).
    { intros Hz%map_size_empty_inv.
      assert (delete socketId m !! partnerId = Some socketId) as Hl
        by by rewrite lookup_delete_ne.
      by rewrite Hz in Hl. }
    rewrite (map_size_delete_Some socketId) in * by eauto. lia. }
  rewrite Hsz in Hev. by apply Nat.Even_succ_succ.
Qed.

Lemma consistent_removeUser socketId s :
  consistent s → consistent (removeUser socketId s).
Proof.
  intros [H1 H2 H3 H4 H5]. split; unfold waiting_not_paired;
    rewrite ?removeUser_waitingQueue, ?removeUser_activePairs.
  - by apply NoDup_ids_filter.
  - intros user [_ Hin]%list_elem_of_filter. by apply remove_lookup_None, H2.
  - by apply remove_symmetric.
  - intros a Ha%remove_lookup_Some. by eapply H4.
  - by apply remove_even.
Qed.

Lemma insert_pair_lookup a b (m : gmap string string) x :
  a ≠ b →
  insert_pair a b m !! x
  = if decide (x = a) then Some b else if decide (x = b) then Some a else m !! x.
Proof.
  intros Hab. unfold insert_pair. repeat case_decide; subst.
  - rewrite lookup_insert_ne by done. apply lookup_insert_eq.
  - apply lookup_insert_eq.
  - by rewrite !lookup_insert_ne.
Qed.

Lemma insert_pair_symmetric a b (m : gmap string string) :
  a ≠ b → m !! a = None → m !! b = None →
  symmetric m → symmetric (insert_pair a b m).
Proof.
  intros Hab Ha Hb Hsym x y. rewrite !insert_pair_lookup by done.
  repeat case_decide; subst; try congruence;
    intros Hxy; pose proof (Hsym _ _ Hxy); congruence.
Qed.

Lemma insert_pair_size a b (m : gmap string string) :
  a ≠ b → m !! a = None → m !! b = None →
  size (insert_pair a b m) = S (S (size m)).
Proof.
  intros Hab Ha Hb. unfold insert_pair.
  rewrite map_size_insert_None by by rewrite lookup_insert_ne.
  by rewrite map_size_insert_None.
Qed.

Lemma consistent_pair user1 user2 rest s s' :
  waitingQueue s = user1 :: user2 :: rest →
  waitingQueue s' = rest →
  activePairs s' = insert_pair (id user1) (id user2) (activePairs s) →
  consistent s → consistent s'.
Proof.
  intros Hq Hq' Hm' [H1 H2 H3 H4 H5]. unfold waiting_not_paired in H2.
  rewrite Hq in H1, H2. rewrite !fmap_cons in H1.
  apply NoDup_cons in H1 as [Hn1 H1]. apply NoDup_cons in H1 as [Hn2 H1].
  apply not_elem_of_cons in Hn1 as [Hne Hn1].
  assert (activePairs s !! id user1 = None) as Hf1 by (apply H2; left).
  assert (activePairs s !! id user2 = None) as Hf2
    by (apply H2; right; left).
  split; unfold waiting_not_paired; rewrite ?Hq', ?Hm'.
  - done.
  - intros user Hin. rewrite insert_pair_lookup by done.
    pose proof (list_elem_of_fmap_2 id _ _ Hin) as Hid.
    repeat case_decide; try congruence; apply H2; by do 2 right.
  - by apply insert_pair_symmetric.
  - intros x. rewrite insert_pair_lookup by done.
    repeat case_decide; subst; congruence.
  - rewrite insert_pair_size by done. by apply Nat.Even_succ_succ.
Qed.

Lemma consistent_pairUsers_loop queue s :
  waitingQueue s = queue → consistent s → consistent (pairUsers_loop queue s).
Proof.
  revert s. induction queue as [| |user1 user2 rest IH] using list_pair_ind;
    intros s Hq Hs; [done..|].
  cbn [pairUsers_loop]. apply IH; [done|].
  by eapply (consistent_pair user1 user2 rest s).
Qed.

Lemma consistent_pairUsers s : consistent s → consistent (pairUsers s).
Proof. by apply consistent_pairUsers_loop. Qed.

(** The part that [start-search] and [next] share: clean up, then join the
    tail of the queue. *)
Lemma consistent_requeue socket s s' :
  waitingQueue s' = waitingQueue (removeUser (id socket) s) ++ [socket] →
  activePairs s' = activePairs (removeUser (id socket) s) →
  consistent s → consistent s'.
Proof.
  intros Hq Hm Hs. apply (consistent_removeUser (id socket)) in Hs.
  destruct Hs as [H1 H2 H3 H4 H5].
  assert (id socket ∉ id <$> waitingQueue (removeUser (id socket) s)) as Hfresh.
  { rewrite removeUser_waitingQueue.
    intros (u & Hu & Hin)%list_elem_of_fmap.
    by apply list_elem_of_filter in Hin as [Hne _]. }
  split; unfold waiting_not_paired; rewrite ?Hq, ?Hm; try done.
  - rewrite fmap_app. apply NoDup_app. split_and!; [done| |].
    + intros x Hx ->%list_elem_of_singleton. done.
    + simpl. apply NoDup_singleton.
  - intros user [Hin| ->%list_elem_of_singleton]%elem_of_app; [by apply H2|].
    apply removeUser_lookup_self.
Qed.

Lemma relay_negotiation_frame event field socket data s :
  waitingQueue (relay_negotiation event field socket data s).1 = waitingQueue s
  ∧ activePairs (relay_negotiation event field socket data s).1 = activePairs s.
Proof.
  unfold relay_negotiation.
  destruct (get_partner _ _) as [partnerId|]; [|done].
  destruct (truthy partnerId); [|done].
  by destruct (get_prop data field).
Qed.

Lemma on_chat_message_frame now socket data s :
  waitingQueue (on_chat_message now socket data s).1 = waitingQueue s
  ∧ activePairs (on_chat_message now socket data s).1 = activePairs s.
Proof.
  unfold on_chat_message.
  destruct (get_partner _ _) as [partnerId|]; [|done].
  destruct (truthy partnerId); [|done].
  by destruct (get_prop data "message").
Qed.

Lemma consistent_exec o s : consistent s → consistent (exec o s).1.
Proof.
  intros Hs. destruct o; simpl.
  - by apply consistent_pairUsers.
  - by apply consistent_removeUser.
  - by apply (consistent_frame s).
  - apply consistent_pairUsers. by eapply (consistent_requeue socket s).
  - destruct (relay_negotiation_frame "offer" "offer" socket data s).
    by apply (consistent_frame s).
  - destruct (relay_negotiation_frame "answer" "answer" socket data s).
    by apply (consistent_frame s).
  - destruct (relay_negotiation_frame "ice-candidate" "candidate" socket data s).
    by apply (consistent_frame s).
  - destruct (on_chat_message_frame now socket data s).
    by apply (consistent_frame s).
  - apply consistent_pairUsers. by eapply (consistent_requeue socket s).
  - by apply consistent_removeUser.
  - apply consistent_removeUser. by apply (consistent_frame s).
Qed.

Lemma reachable_consistent s : reachable s → consistent s.
Proof.
  induction 1 as [|o s _ IH]; [apply consistent_initial|by apply consistent_exec].
Qed.

(** ** Runs under the transport library *)

Lemma live_reachable s : live s → reachable s.
Proof. induction 1; by constructor. Qed.

Lemma registered_initial : registered initial.
Proof.
  split; simpl.
  - apply not_elem_of_empty.
  - intros user Hin. by apply elem_of_nil in Hin.
  - intros a b Hab. by rewrite lookup_empty in Hab.
Qed.

Lemma registered_frame s s' :
  waitingQueue s' = waitingQueue s →
  activePairs s' = activePairs s →
  sockets s' = sockets s →
  registered s → registered s'.
Proof. intros Hq Hm Hc [H1 H2 H3]. split; rewrite ?Hq, ?Hm, ?Hc; auto. Qed.

Lemma registered_removeUser socketId s :
  registered s → registered (removeUser socketId s).
Proof.
  intros [H1 H2 H3].
  split; rewrite ?removeUser_waitingQueue, ?removeUser_activePairs,
    ?removeUser_sockets.
  - done.
  - intros user [_ Hin]%list_elem_of_filter. by apply H2.
  - intros a b Hab%remove_lookup_Some. by eapply H3.
Qed.

Lemma registered_pairUsers_loop queue s :
  waitingQueue s = queue → registered s → registered (pairUsers_loop queue s).
Proof.
  revert s. induction queue as [| |user1 user2 rest IH] using list_pair_ind;
    intros s Hq Hs; [done..|].
  cbn [pairUsers_loop]. apply IH; [done|].
  destruct Hs as [H1 H2 H3]. rewrite Hq in H2. split; simpl.
  - done.
  - intros user Hin. apply H2. by do 2 right.
  - intros a b. unfold insert_pair. rewrite !lookup_insert.
    repeat case_decide; subst.
    + intros _. apply H2. right; left.
    + intros _. apply H2. left.
    + apply H3.
Qed.

Lemma registered_requeue socket s s' :
  id socket ∈ sockets s →
  waitingQueue s' = waitingQueue (removeUser (id socket) s) ++ [socket] →
  activePairs s' = activePairs (removeUser (id socket) s) →
  sockets s' = sockets (removeUser (id socket) s) →
  registered s → registered s'.
Proof.
  intros Hin Hq Hm Hc Hs. apply (registered_removeUser (id socket)) in Hs.
  rewrite <- (removeUser_sockets (id socket) s) in Hin.
  destruct Hs as [H1 H2 H3]. split; rewrite ?Hq, ?Hm, ?Hc.
  - done.
  - intros user [Hu| ->%list_elem_of_singleton]%elem_of_app; [by apply H2|done].
  - done.
Qed.

Lemma registered_disconnect socket s :
  registered s →
  registered (on_disconnect socket (set_sockets (sockets s ∖ {[id socket]}) s)).
Proof.
  intros [H1 H2 H3]. unfold on_disconnect.
  split; rewrite ?removeUser_waitingQueue, ?removeUser_activePairs,
    ?removeUser_sockets; simpl.
  - by intros [Hin _]%elem_of_difference.
  - intros user [Hne Hin]%list_elem_of_filter.
    apply elem_of_difference. split; [by apply H2|].
    by intros Heq%elem_of_singleton.
  - intros a b Hab. assert (a ≠ id socket) as Hne.
    { intros ->. by rewrite remove_lookup_self in Hab. }
    apply elem_of_difference. split; [|by intros Heq%elem_of_singleton].
    by eapply H3, remove_lookup_Some.
Qed.

Lemma registered_exec o s :
  registered s → admissible o s → registered (exec o s).1.
Proof.
  intros Hs Hadm. destruct o; simpl in *.
  - by apply registered_pairUsers_loop.
  - by apply registered_removeUser.
  - destruct Hs as [H1 H2 H3], Hadm as [Hne Hfresh]. split; simpl.
    + intros [Heq%elem_of_singleton|Hin]%elem_of_union; [congruence|done].
    + intros user Hin. apply elem_of_union. right. by apply H2.
    + intros a b Hab. apply elem_of_union. right. by eapply H3.
  - apply registered_pairUsers_loop; [done|].
    by eapply (registered_requeue socket s).
  - destruct (relay_negotiation_frame "offer" "offer" socket data s).
    apply (registered_frame s); try done.
    unfold on_offer, relay_negotiation. by repeat case_match.
  - destruct (relay_negotiation_frame "answer" "answer" socket data s).
    apply (registered_frame s); try done.
    unfold on_answer, relay_negotiation. by repeat case_match.
  - destruct (relay_negotiation_frame "ice-candidate" "candidate" socket data s).
    apply (registered_frame s); try done.
    unfold on_ice_candidate, relay_negotiation. by repeat case_match.
  - destruct (on_chat_message_frame now socket data s).
    apply (registered_frame s); try done.
    unfold on_chat_message. by repeat case_match.
  - apply registered_pairUsers_loop; [done|].
    by eapply (registered_requeue socket s).
  - by apply registered_removeUser.
  - by apply registered_disconnect.
Qed.

Lemma live_registered s : live s → registered s.
Proof.
  induction 1 as [|o s _ IH Hadm];
    [apply registered_initial|by apply registered_exec].
Qed.

(** In a run under the transport library a partner is a connected socket
    with a truthy identifier. *)
Lemma live_partner s socketId partnerId :
  live s → activePairs s !! socketId = Some partnerId →
  partnerId ∈ sockets s ∧ truthy partnerId = true.
Proof.
  intros Hlive Hp.
  pose proof (reachable_consistent s (live_reachable s Hlive)) as [_ _ Hsym _ _].
  pose proof (live_registered s Hlive) as [Hne _ Hc].
  apply Hsym, Hc in Hp. split; [done|].
  unfold truthy. destruct (String.eqb_spec partnerId ""); [by subst|done].
Qed.

(** * The claims *)

(** C1.  One call of [pairUsers] takes the sessions off the head of the
    queue two at a time, oldest first, and pairs each two: the sessions at
    positions [2k] and [2k+1] are dequeued together, each is sent [paired]
    with the other's identifier, in queue order, and (when the queue holds
    no identifier twice) each is entered in the table as the other's
    partner.  On return fewer than two sessions wait: none when the queue
    length was even, exactly one, the newest, when it was odd.  Entries of
    sessions that were not dequeued are untouched. *)
Theorem pairUsers_drains_fifo (s : State) :
  let queue := waitingQueue s in
  let n := length queue in
  let s' := pairUsers s in
  waitingQueue s' = drop (2 * (n / 2)) queue
  ∧ length (waitingQueue s') < 2
  ∧ (Nat.Even n → waitingQueue s' = [])
  ∧ (Nat.Odd n → ∃ user, queue !! (n - 1) = Some user ∧ waitingQueue s' = [user])
  ∧ length (emitted s') = length (emitted s) + 2 * (n / 2)
  ∧ (∀ i, i < length (emitted s) → emitted s' !! i = emitted s !! i)
  ∧ (∀ k user1 user2,
       queue !! (2 * k) = Some user1 → queue !! (2 * k + 1) = Some user2 →
       emitted s' !! (length (emitted s) + 2 * k)
         = Some (SocketEmit (id user1) "paired"
                   (Some (VObj [("partnerId", VStr (id user2))])))
       ∧ emitted s' !! (length (emitted s) + (2 * k + 1))
         = Some (SocketEmit (id user2) "paired"
                   (Some (VObj [("partnerId", VStr (id user1))]))))
  ∧ (NoDup (id <$> queue) →
     ∀ k user1 user2,
       queue !! (2 * k) = Some user1 → queue !! (2 * k + 1) = Some user2 →
       get_partner (id user1) (activePairs s') = Some (id user2)
       ∧ get_partner (id user2) (activePairs s') = Some (id user1))
  ∧ (∀ x, x ∉ id <$> take (2 * (n / 2)) queue →
          get_partner x (activePairs s') = get_partner x (activePairs s))
  ∧ sockets s' = sockets s.
Proof.
  intros queue n s'. subst s'. unfold pairUsers. fold queue.
  rewrite pairUsers_loop_waitingQueue, pairUsers_loop_emitted,
    pairUsers_loop_activePairs, pairUsers_loop_sockets by done.
  fold n.
  assert (n = 2 * (n / 2) + n mod 2) as Hdiv by (apply Nat.div_mod_eq).
  assert (n mod 2 < 2) as Hmod by (apply Nat.mod_upper_bound; lia).
  split_and!.
  - done.
  - rewrite length_drop. fold n. lia.
  - intros [h Hh]. apply drop_ge. fold n.
    rewrite Hh, Nat.mul_comm, Nat.div_mul by lia. lia.
  - intros [h Hh].
    assert (n / 2 = h) as Hhalf.
    { rewrite Hh, Nat.mul_comm, Nat.div_add_l by lia. simpl. lia. }
    rewrite Hhalf. replace (n - 1) with (2 * h) by lia.
    destruct (queue !! (2 * h)) as [user|] eqn:Hu.
    + exists user. split; [done|].
      apply list_eq. intros i. rewrite lookup_drop.
      destruct i as [|i]; simpl; [by rewrite Nat.add_0_r|].
      apply lookup_ge_None_2. fold n. lia.
    + apply lookup_ge_None_1 in Hu. fold n in Hu. lia.
  - rewrite length_app, paired_events_length. done.
  - intros i Hi. by apply lookup_app_l.
  - intros k user1 user2 H1 H2.
    rewrite !lookup_app_r by lia.
    replace (length (emitted s) + 2 * k - length (emitted s)) with (2 * k)
      by lia.
    replace (length (emitted s) + (2 * k + 1) - length (emitted s))
      with (2 * k + 1) by lia.
    by apply paired_events_lookup.
  - intros Hnd k user1 user2 H1 H2. by apply (paired_table_lookup queue _ k).
  - intros x Hx. by apply paired_table_other.
  - done.
Qed.

(** C2.  At every observation point the active pair table is symmetric
    (with every entry [a → b] it holds the entry [b → a]) and its size is
    even. *)
Theorem activePairs_symmetric_even (s : State) :
  reachable s →
  (∀ a b, get_partner a (activePairs s) = Some b →
          get_partner b (activePairs s) = Some a)
  ∧ Nat.Even (size (activePairs s)).
Proof.
  intros Hs. apply reachable_consistent in Hs as [_ _ Hsym _ Hev]. by split.
Qed.

(** C3.  At every observation point no session identifier is in the waiting
    queue and a key of the active pair table at once; a waiting session
    is in the queue only once. *)
Theorem waiting_disjoint_from_paired (s : State) :
  reachable s →
  (∀ x, x ∈ id <$> waitingQueue s → get_partner x (activePairs s) = None)
  ∧ (∀ x, is_Some (get_partner x (activePairs s)) → x ∉ id <$> waitingQueue s)
  ∧ NoDup (id <$> waitingQueue s).
Proof.
  intros Hs. apply reachable_consistent in Hs as [Hnd Hdis _ _ _].
  assert (∀ x, x ∈ id <$> waitingQueue s → activePairs s !! x = None) as H.
  { intros x (user & -> & Hin)%list_elem_of_fmap. by apply Hdis. }
  split_and!; [done| |done].
  intros x [y Hy] Hin. unfold get_partner in Hy. rewrite H in Hy; done.
Qed.

(** C4.  Calling [removeUser] a second time with the same identifier changes
    nothing: the state, the list of emitted notifications included, is the
    one the first call left, and the second call notifies no one. *)
Theorem removeUser_idempotent (socketId : string) (s : State) :
  let once := removeUser socketId s in
  let twice := removeUser socketId once in
  twice = once
  ∧ waitingQueue twice = waitingQueue once
  ∧ activePairs twice = activePairs once
  ∧ emitted twice = emitted once.
Proof.
  intros once twice.
  assert (twice = once) as Heq; [|by rewrite Heq].
  subst once twice.
  assert (farewell socketId (removeUser socketId s) = []) as Hquiet
    by apply farewell_absent, removeUser_lookup_self.
  apply State_eq.
  - rewrite !removeUser_waitingQueue. apply filter_twice.
  - rewrite (removeUser_activePairs _ (removeUser _ _)).
    by rewrite remove_absent by apply removeUser_lookup_self.
  - by rewrite !removeUser_sockets.
  - rewrite (removeUser_emitted _ (removeUser _ _)), Hquiet. apply app_nil_r.
Qed.

(** C5.  In a run under the transport library, when the sender has a partner
    in the table, each relay handler returns normally and appends exactly
    one event to the emitted events: an event to the room of the partner,
    who is connected.  [offer], [answer] and [ice-candidate] carry the field
    read from the inbound payload and [from] set to the sender's
    identifier; [chat-message] carries the message, [from: "Stranger"] and
    the timestamp.  Nothing else changes.  The inbound payload is one whose
    field can be read, that is, it is neither [undefined] nor [null]. *)
Theorem relay_to_partner (s : State) (socket : Socket) (partnerId : string)
    (data : JSValue) (now : Z) :
  live s →
  get_partner (id socket) (activePairs s) = Some partnerId →
  partnerId ∈ sockets s
  ∧ (∀ offer, get_prop data "offer" = Some offer →
       let result := on_offer socket data s in
       result.2 = Normal
       ∧ emitted result.1
         = emitted s
           ++ [RoomEmit partnerId "offer"
                 (Some (VObj [("offer", offer); ("from", VStr (id socket))]))]
       ∧ waitingQueue result.1 = waitingQueue s
       ∧ activePairs result.1 = activePairs s
       ∧ sockets result.1 = sockets s)
  ∧ (∀ answer, get_prop data "answer" = Some answer →
       let result := on_answer socket data s in
       result.2 = Normal
       ∧ emitted result.1
         = emitted s
           ++ [RoomEmit partnerId "answer"
                 (Some (VObj [("answer", answer); ("from", VStr (id socket))]))]
       ∧ waitingQueue result.1 = waitingQueue s
       ∧ activePairs result.1 = activePairs s
       ∧ sockets result.1 = sockets s)
  ∧ (∀ candidate, get_prop data "candidate" = Some candidate →
       let result := on_ice_candidate socket data s in
       result.2 = Normal
       ∧ emitted result.1
         = emitted s
           ++ [RoomEmit partnerId "ice-candidate"
                 (Some (VObj [("candidate", candidate);
                              ("from", VStr (id socket))]))]
       ∧ waitingQueue result.1 = waitingQueue s
       ∧ activePairs result.1 = activePairs s
       ∧ sockets result.1 = sockets s)
  ∧ (∀ message, get_prop data "message" = Some message →
       let result := on_chat_message now socket data s in
       result.2 = Normal
       ∧ emitted result.1
         = emitted s
           ++ [RoomEmit partnerId "chat-message"
                 (Some (VObj [("message", message);
                              ("from", VStr "Stranger");
                              ("timestamp", VNum now)]))]
       ∧ waitingQueue result.1 = waitingQueue s
       ∧ activePairs result.1 = activePairs s
       ∧ sockets result.1 = sockets s).
Proof.
  intros Hlive Hp.
  destruct (live_partner s (id socket) partnerId Hlive Hp) as [Hin Htruthy].
  split; [done|].
  unfold on_offer, on_answer, on_ice_candidate, relay_negotiation,
    on_chat_message.
  rewrite Hp, Htruthy. split_and!; by intros v ->.
Qed.

(** C6.  When the sender has no partner in the table, each relay handler
    returns normally and leaves the whole state as it was: nothing is
    emitted, whatever the inbound payload is. *)
Theorem relay_without_partner (s : State) (socket : Socket)
    (data : JSValue) (now : Z) :
  get_partner (id socket) (activePairs s) = None →
  on_offer socket data s = (s, Normal)
  ∧ on_answer socket data s = (s, Normal)
  ∧ on_ice_candidate socket data s = (s, Normal)
  ∧ on_chat_message now socket data s = (s, Normal).
Proof.
  intros Hp.
  unfold on_offer, on_answer, on_ice_candidate, relay_negotiation,
    on_chat_message.
  by rewrite Hp.
Qed.

(** C7.  For distinct [a] and [b], [insert_pair a b] followed by [remove a]
    returns the partner [b] and deletes the entries of [a] and of [b]; a
    following [remove b] returns no partner and leaves the table as it is.
    In [removeUser] this is the table part: the second call neither changes
    the table nor notifies anyone. *)
Theorem insert_pair_remove_roundtrip (a b : string) (m : gmap string string) :
  a ≠ b →
  let inserted := insert_pair a b m in
  let removed := remove a inserted in
  removed.1 = Some b
  ∧ removed.2 = delete b (delete a inserted)
  ∧ get_partner a removed.2 = None
  ∧ get_partner b removed.2 = None
  ∧ remove b removed.2 = (None, removed.2)
  ∧ (∀ s, activePairs s = inserted →
          activePairs (removeUser a s) = removed.2
          ∧ activePairs (removeUser b (removeUser a s)) = removed.2
          ∧ emitted (removeUser b (removeUser a s)) = emitted (removeUser a s)).
Proof.
  intros Hab inserted removed.
  assert (inserted !! a = Some b) as Ha.
  { unfold inserted. rewrite insert_pair_lookup by done.
    by rewrite decide_True. }
  assert (removed = (Some b, delete b (delete a inserted))) as Hr
    by by apply remove_present.
  assert (removed.2 !! b = None) as Hb
    by (rewrite Hr; apply lookup_delete_eq).
  split_and!.
  - by rewrite Hr.
  - by rewrite Hr.
  - apply remove_lookup_self.
  - done.
  - by apply remove_absent.
  - intros s Hs.
    assert (activePairs (removeUser a s) = removed.2) as Hm
      by (rewrite removeUser_activePairs, Hs; done).
    split_and!; [done| |].
    + rewrite removeUser_activePairs, Hm. by rewrite remove_absent.
    + rewrite (removeUser_emitted b), farewell_absent by by rewrite Hm.
      apply app_nil_r.
Qed.

(** C8.  When [socketId] is paired with [partnerId], [removeUser socketId]
    deletes the entries of both from the table and leaves every other
    entry; it emits [partner-disconnected] to the partner when the partner's
    socket is still in the map of sockets, and emits nothing otherwise.
    Afterwards neither of the two has a partner.  The [disconnect] handler
    is this call. *)
Theorem removeUser_paired (s : State) (socketId partnerId : string) :
  get_partner socketId (activePairs s) = Some partnerId →
  let s' := removeUser socketId s in
  activePairs s' = delete partnerId (delete socketId (activePairs s))
  ∧ get_partner socketId (activePairs s') = None
  ∧ get_partner partnerId (activePairs s') = None
  ∧ (∀ x, x ≠ socketId → x ≠ partnerId →
          get_partner x (activePairs s') = get_partner x (activePairs s))
  ∧ (partnerId ∈ sockets s →
     emitted s' = emitted s ++ [SocketEmit partnerId "partner-disconnected" None])
  ∧ (partnerId ∉ sockets s → emitted s' = emitted s)
  ∧ (∀ socket, id socket = socketId → on_disconnect socket s = s').
Proof.
  intros Hp s'. unfold get_partner in *.
  assert (activePairs s' = delete partnerId (delete socketId (activePairs s)))
    as Hm.
  { unfold s'. rewrite removeUser_activePairs.
    by rewrite (remove_present _ partnerId). }
  assert (emitted s' = emitted s ++ farewell socketId s) as He
    by apply removeUser_emitted.
  unfold farewell in He. rewrite Hp in He.
  split_and!.
  - done.
  - apply removeUser_lookup_self.
  - rewrite Hm. apply lookup_delete_eq.
  - intros x Hx1 Hx2. rewrite Hm. by rewrite !lookup_delete_ne.
  - intros Hin. by rewrite decide_True in He.
  - intros Hout. rewrite decide_False in He by done. by rewrite app_nil_r in He.
  - intros socket Hid. unfold on_disconnect, s'. by rewrite Hid.
Qed.

Lemma pairUsers_emit_waitingQueue e s :
  waitingQueue (pairUsers (emit e s)) = waitingQueue (pairUsers s).
Proof. unfold pairUsers. by rewrite !pairUsers_loop_waitingQueue. Qed.

Lemma pairUsers_emit_activePairs e s :
  activePairs (pairUsers (emit e s)) = activePairs (pairUsers s).
Proof. unfold pairUsers. by rewrite !pairUsers_loop_activePairs. Qed.

(** C9.  The [next] handler does to the whole state what the [start-search]
    handler does for the same session.  Both leave the waiting queue and the
    active pair table as [leave], [enqueue], [try_pair_all] in a row do,
    and emit the notifications of that composition, with the [searching]
    acknowledgement to the session after those of [leave]. *)
Theorem next_equivalent_to_start_search (socket : Socket) (s : State) :
  on_next socket s = on_start_search socket s
  ∧ waitingQueue (on_next socket s) = waitingQueue (leave_enqueue_pair socket s)
  ∧ activePairs (on_next socket s) = activePairs (leave_enqueue_pair socket s)
  ∧ sockets (on_next socket s) = sockets (leave_enqueue_pair socket s)
  ∧ ∃ pairing,
      emitted (leave_enqueue_pair socket s)
      = emitted (removeUser (id socket) s) ++ pairing
      ∧ emitted (on_next socket s)
        = emitted (removeUser (id socket) s)
          ++ SocketEmit (id socket) "searching" None :: pairing.
Proof.
  unfold on_next, on_start_search, leave_enqueue_pair. split_and!.
  - done.
  - apply pairUsers_emit_waitingQueue.
  - apply pairUsers_emit_activePairs.
  - unfold pairUsers. by rewrite !pairUsers_loop_sockets.
  - exists (paired_events (waitingQueue (enqueue socket (removeUser (id socket) s)))).
    unfold pairUsers. rewrite !pairUsers_loop_emitted. simpl.
    split; [done|]. by rewrite <- app_assoc.
Qed.

(** C10.  Each relay handler leaves the waiting queue and the active pair
    table as they were, whatever the payload and whether or not the sender
    has a partner, also when reading the payload throws. *)
Theorem relay_preserves_matchmaking (s : State) (socket : Socket)
    (data : JSValue) (now : Z) :
  same_matchmaking s (on_offer socket data s).1
  ∧ same_matchmaking s (on_answer socket data s).1
  ∧ same_matchmaking s (on_ice_candidate socket data s).1
  ∧ same_matchmaking s (on_chat_message now socket data s).1.
Proof.
  split_and!; try apply relay_negotiation_frame. apply on_chat_message_frame.
Qed.

(** * The claims on sample runs *)

Example run_paired_state :
  waitingQueue run_paired = []
  ∧ activePairs run_paired !! "A" = Some "B"
  ∧ activePairs run_paired !! "B" = Some "A"
  ∧ size (activePairs run_paired) = 2
  ∧ emitted run_paired
    = [SocketEmit "A" "searching" None;
       SocketEmit "B" "searching" None;
       SocketEmit "A" "paired" (Some (VObj [("partnerId", VStr "B")]));
       SocketEmit "B" "paired" (Some (VObj [("partnerId", VStr "A")]))].
Proof. by vm_compute. Qed.

Example run_three_state :
  waitingQueue run_three = [carol]
  ∧ activePairs run_three !! "C" = None
  ∧ size (activePairs run_three) = 2.
Proof. by vm_compute. Qed.

Example next_pairs_with_waiting :
  let s := on_next alice run_three in
  waitingQueue s = []
  ∧ activePairs s !! "A" = Some "C"
  ∧ activePairs s !! "C" = Some "A"
  ∧ activePairs s !! "B" = None
  ∧ drop 5 (emitted s)
    = [SocketEmit "B" "partner-disconnected" None;
       SocketEmit "A" "searching" None;
       SocketEmit "C" "paired" (Some (VObj [("partnerId", VStr "A")]));
       SocketEmit "A" "paired" (Some (VObj [("partnerId", VStr "C")]))].
Proof. by vm_compute. Qed.

Example offer_without_payload_throws :
  on_offer alice VUndefined run_paired = (run_paired, TypeError).
Proof. by vm_compute. Qed.

Lemma live_run_paired : live run_paired.
Proof.
  unfold run_paired.
  repeat (apply live_exec;
          [|cbn [admissible]; apply (bool_decide_unpack _); by vm_compute]).
  apply live_initial.
Qed.

Lemma reachable_run_three : reachable run_three.
Proof.
  unfold run_three. do 2 apply reachable_exec.
  apply live_reachable, live_run_paired.
Qed.

Lemma pairUsers_drains_fifo_witness :
  Nat.Odd (length (waitingQueue three_waiting))
  ∧ NoDup (id <$> waitingQueue three_waiting)
  ∧ waitingQueue (pairUsers three_waiting) = [carol]
  ∧ get_partner "A" (activePairs (pairUsers three_waiting)) = Some "B"
  ∧ get_partner "B" (activePairs (pairUsers three_waiting)) = Some "A".
Proof.
  assert (Nat.Odd (length (waitingQueue three_waiting))) as Hodd
    by (exists 1; reflexivity).
  assert (NoDup (id <$> waitingQueue three_waiting)) as Hnd
    by (apply (bool_decide_unpack _); by vm_compute).
  destruct (pairUsers_drains_fifo three_waiting)
    as (_ & _ & _ & Hone & _ & _ & _ & Htable & _).
  destruct (Hone Hodd) as (user & Hlast & Hqueue).
  destruct (Htable Hnd 0 alice bob eq_refl eq_refl) as [Hab Hba].
  simpl in Hlast. injection Hlast as <-. by split_and!.
Defined.

Lemma activePairs_symmetric_even_witness :
  reachable run_three
  ∧ (∀ a b, get_partner a (activePairs run_three) = Some b →
            get_partner b (activePairs run_three) = Some a)
  ∧ Nat.Even (size (activePairs run_three)).
Proof.
  split; [apply reachable_run_three|].
  apply (activePairs_symmetric_even run_three), reachable_run_three.
Defined.

Lemma waiting_disjoint_from_paired_witness :
  reachable run_three
  ∧ (∀ x, x ∈ id <$> waitingQueue run_three →
          get_partner x (activePairs run_three) = None)
  ∧ (∀ x, is_Some (get_partner x (activePairs run_three)) →
          x ∉ id <$> waitingQueue run_three)
  ∧ NoDup (id <$> waitingQueue run_three).
Proof.
  split; [apply reachable_run_three|].
  apply (waiting_disjoint_from_paired run_three), reachable_run_three.
Defined.

Lemma relay_to_partner_witness :
  live run_paired
  ∧ get_partner (id alice) (activePairs run_paired) = Some "B"
  ∧ get_prop (VObj [("offer", VStr "sdp1")]) "offer" = Some (VStr "sdp1")
  ∧ "B" ∈ sockets run_paired
  ∧ (on_offer alice (VObj [("offer", VStr "sdp1")]) run_paired).2 = Normal
  ∧ emitted (on_offer alice (VObj [("offer", VStr "sdp1")]) run_paired).1
    = emitted run_paired
      ++ [RoomEmit "B" "offer"
            (Some (VObj [("offer", VStr "sdp1"); ("from", VStr "A")]))].
Proof.
  assert (get_partner (id alice) (activePairs run_paired) = Some "B") as Hp
    by reflexivity.
  destruct (relay_to_partner run_paired alice "B"
              (VObj [("offer", VStr "sdp1")]) 0 live_run_paired Hp)
    as (Hin & Hoffer & _).
  destruct (Hoffer (VStr "sdp1") eq_refl) as (Hnormal & Hemitted & _).
  split_and!; [apply live_run_paired|done..].
Defined.

Lemma relay_without_partner_witness :
  get_partner (id alice) (activePairs initial) = None
  ∧ on_chat_message 0 alice (VObj [("message", VStr "hi")]) initial
    = (initial, Normal).
Proof.
  assert (get_partner (id alice) (activePairs initial) = None) as Hp
    by reflexivity.
  split; [done|].
  apply (relay_without_partner initial alice (VObj [("message", VStr "hi")]) 0 Hp).
Defined.

Lemma insert_pair_remove_roundtrip_witness :
  "A" ≠ "B"
  ∧ (remove "A" (insert_pair "A" "B" ∅)).1 = Some "B"
  ∧ remove "B" (remove "A" (insert_pair "A" "B" ∅)).2
    = (None, (remove "A" (insert_pair "A" "B" ∅)).2).
Proof.
  assert ("A" ≠ "B") as Hne by discriminate.
  destruct (insert_pair_remove_roundtrip "A" "B" ∅ Hne)
    as (Hpartner & _ & _ & _ & Hagain & _).
  by split_and!.
Defined.

Lemma removeUser_paired_witness :
  get_partner "B" (activePairs run_paired) = Some "A"
  ∧ "A" ∈ sockets run_paired
  ∧ get_partner "A" (activePairs (removeUser "B" run_paired)) = None
  ∧ emitted (removeUser "B" run_paired)
    = emitted run_paired ++ [SocketEmit "A" "partner-disconnected" None].
Proof.
  assert (get_partner "B" (activePairs run_paired) = Some "A") as Hp
    by reflexivity.
  assert ("A" ∈ sockets run_paired) as Hin
    by (apply (bool_decide_unpack _); by vm_compute).
  destruct (removeUser_paired run_paired "B" "A" Hp)
    as (_ & _ & Hgone & _ & Hnotified & _).
  split_and!; [done|done|done|]. by apply Hnotified.
Defined.

(** * Further properties of the code *)

#[local] Set Warnings "-clear-no-such-hyp".

(** ** The queue between two operations *)

Lemma pairUsers_loop_short queue s :
  length queue < 2 → pairUsers_loop queue s = s.
Proof. destruct queue as [|user1 [|user2 rest]]; simpl; [done..|lia]. Qed.

Lemma pairUsers_short s : length (waitingQueue (pairUsers s)) < 2.
Proof.
  unfold pairUsers. rewrite pairUsers_loop_waitingQueue by done.
  rewrite length_drop.
  pose proof (Nat.div_mod_eq (length (waitingQueue s)) 2).
  pose proof (Nat.mod_upper_bound (length (waitingQueue s)) 2). lia.
Qed.

Lemma removeUser_short socketId s :
  length (waitingQueue s) < 2 →
  length (waitingQueue (removeUser socketId s)) < 2.
Proof.
  intros Hs. rewrite removeUser_waitingQueue.
  pose proof (length_filter (λ user, id user ≠ socketId) (waitingQueue s)). lia.
Qed.

Lemma exec_short o s :
  length (waitingQueue s) < 2 → length (waitingQueue (exec o s).1) < 2.
Proof.
  intros Hs. destruct o; simpl;
    try apply pairUsers_short; try by apply removeUser_short.
  - done.
  - unfold on_offer. by rewrite (proj1 (relay_negotiation_frame _ _ _ _ _)).
  - unfold on_answer. by rewrite (proj1 (relay_negotiation_frame _ _ _ _ _)).
  - unfold on_ice_candidate.
    by rewrite (proj1 (relay_negotiation_frame _ _ _ _ _)).
  - by rewrite (proj1 (on_chat_message_frame _ _ _ _)).
Qed.

Lemma reachable_short s : reachable s → length (waitingQueue s) < 2.
Proof.
  induction 1 as [|o s _ IH]; [simpl; lia|by apply exec_short].
Qed.

(** X1.  At every observation point at most one session waits: every
    handler that enqueues a session runs [pairUsers] before it returns, and
    [removeUser] only shortens the queue. *)
Theorem at_most_one_waiting (s : State) :
  reachable s → (length (waitingQueue s) ≤ 1)%nat.
Proof. intros Hs%reachable_short. lia. Qed.

(** X2.  [pairUsers] runs to a fixed point: a second call right after the
    first changes nothing and emits nothing, and on a queue of fewer than two
    sessions the call does nothing at all. *)
Theorem pairUsers_fixed_point (s : State) :
  pairUsers (pairUsers s) = pairUsers s
  ∧ (length (waitingQueue s) < 2 → pairUsers s = s).
Proof.
  split.
  - unfold pairUsers at 1. apply pairUsers_loop_short, pairUsers_short.
  - intros Hs. by apply pairUsers_loop_short.
Qed.

Lemma sessions_pairUsers_loop queue s :
  waitingQueue s = queue → sessions (pairUsers_loop queue s) = sessions s.
Proof.
  revert s. induction queue as [| |user1 user2 rest IH] using list_pair_ind;
    intros s Hq; [done..|].
  cbn [pairUsers_loop]. rewrite IH by done.
  unfold sessions, insert_pair; simpl. rewrite Hq, !dom_insert_L.
  rewrite !fmap_cons, !list_to_set_cons. set_solver.
Qed.

(** X3.  [pairUsers] loses no session and invents none: the sessions that
    wait or are paired are the same before and after the call, in any
    state. *)
Theorem pairUsers_keeps_sessions (s : State) :
  sessions (pairUsers s) = sessions s.
Proof. by apply sessions_pairUsers_loop. Qed.

(** ** What [removeUser] removes *)

Lemma filter_all {A} (P : A → Prop) `{∀ x, Decision (P x)} (l : list A) :
  (∀ x, x ∈ l → P x) → filter P l = l.
Proof.
  induction l as [|x l IH]; [done|]. intros Hall.
  rewrite filter_cons_True by (apply Hall; left).
  rewrite IH; [done|]. intros y Hy. apply Hall. by right.
Qed.

Lemma elem_of_sessions s x :
  x ∈ sessions s ↔ x ∈ id <$> waitingQueue s ∨ is_Some (activePairs s !! x).
Proof.
  unfold sessions. by rewrite elem_of_union, elem_of_list_to_set, elem_of_dom.
Qed.

Lemma elem_of_ids_removeUser socketId s x :
  x ∈ id <$> waitingQueue (removeUser socketId s)
  ↔ x ∈ id <$> waitingQueue s ∧ x ≠ socketId.
Proof.
  rewrite removeUser_waitingQueue, !list_elem_of_fmap. split.
  - intros (user & -> & [Hne Hin]%list_elem_of_filter). eauto.
  - intros [(user & -> & Hin) Hne]. exists user. split; [done|].
    by apply list_elem_of_filter.
Qed.

(** X4.  [removeUser] on an identifier that neither waits nor is paired is
    a no-op: the state, emitted events included, stays as it is. *)
Theorem removeUser_absent_noop (socketId : string) (s : State) :
  socketId ∉ sessions s → removeUser socketId s = s.
Proof.
  rewrite elem_of_sessions. intros Hout.
  assert (activePairs s !! socketId = None) as Hp.
  { destruct (activePairs s !! socketId) eqn:E; [|done].
    exfalso. apply Hout. right. eauto. }
  apply State_eq.
  - rewrite removeUser_waitingQueue. apply filter_all.
    intros user Hin Heq. apply Hout. left. subst.
    by apply list_elem_of_fmap_2.
  - by rewrite removeUser_activePairs, remove_absent.
  - apply removeUser_sockets.
  - rewrite removeUser_emitted, farewell_absent by done. apply app_nil_r.
Qed.

(** X5.  After [removeUser] the identifier neither waits nor is paired, in
    any state.  The queue keeps exactly the sessions with another
    identifier, in their former order. *)
Theorem removeUser_leaves_idle (socketId : string) (s : State) :
  (socketId ∉ sessions (removeUser socketId s))
  ∧ (waitingQueue (removeUser socketId s) `sublist_of` waitingQueue s)
  ∧ (∀ user, user ∈ waitingQueue (removeUser socketId s)
             ↔ user ∈ waitingQueue s ∧ id user ≠ socketId).
Proof.
  split_and!.
  - rewrite elem_of_sessions, elem_of_ids_removeUser, removeUser_lookup_self.
    intros [[_ Hne]|[x Hx]]; done.
  - rewrite removeUser_waitingQueue. apply sublist_filter.
  - intros user. rewrite removeUser_waitingQueue, list_elem_of_filter. tauto.
Qed.

Lemma remove_lookup socketId (m : gmap string string) x :
  (remove socketId m).2 !! x
  = match m !! socketId with
    | Some partnerId =>
        if decide (x = socketId ∨ x = partnerId) then None else m !! x
    | None => m !! x
    end.
Proof.
  unfold remove. destruct (m !! socketId) as [partnerId|]; simpl; [|done].
  case_decide as Hx.
  - destruct (decide (x = partnerId)) as [->|Hne]; [apply lookup_delete_eq|].
    destruct Hx as [-> |]; [|done].
    rewrite lookup_delete_ne by done. apply lookup_delete_eq.
  - rewrite !lookup_delete_ne; [done|intros ->; tauto..].
Qed.

Lemma sessions_removeUser socketId s :
  consistent s →
  sessions (removeUser socketId s)
  = sessions s ∖ ({[socketId]} ∪ match activePairs s !! socketId with
                                 | Some partnerId => {[partnerId]}
                                 | None => ∅
                                 end).
Proof.
  intros [_ Hdis Hsym _ _]. apply set_eq. intros x.
  rewrite elem_of_difference, !elem_of_sessions, elem_of_ids_removeUser.
  rewrite removeUser_activePairs, remove_lookup, elem_of_union, elem_of_singleton.
  destruct (activePairs s !! socketId) as [partnerId|] eqn:E.
  - rewrite elem_of_singleton. case_decide as Hx.
    + split; [|tauto]. intros [[Hin Hne]|Hsome]; [|by destruct Hsome].
      destruct Hx as [-> | ->]; [done|].
      apply list_elem_of_fmap in Hin as (user & -> & Hin).
      apply Hdis in Hin. apply Hsym in E. congruence.
    + split; [tauto|]. intros [[Hin|Hsome] _]; [left|right]; tauto.
  - rewrite elem_of_empty. split.
    + intros [[Hin Hne]|Hsome]; [tauto|]. split; [by right|].
      intros [-> |Hf]; [|done]. destruct Hsome; congruence.
    + intros [[Hin|Hsome] Hne]; [left|right]; tauto.
Qed.

Lemma partners_removeUser socketId s :
  consistent s → socketId ∉ partners (removeUser socketId s).
Proof.
  intros Hs. apply (consistent_removeUser socketId) in Hs as [_ _ Hsym _ _].
  unfold partners. intros (k & Hk)%elem_of_map_img.
  apply Hsym in Hk. by rewrite removeUser_lookup_self in Hk.
Qed.

(** X6.  At an observation point [removeUser] takes out of the matchmaking
    exactly the session and its partner, if it has one: every other session
    waits or is paired as before, and afterwards no entry of the table names
    the removed session as a partner. *)
Theorem removeUser_removes_exactly (socketId : string) (s : State) :
  reachable s →
  sessions (removeUser socketId s)
  = sessions s ∖ ({[socketId]} ∪ match get_partner socketId (activePairs s) with
                                 | Some partnerId => {[partnerId]}
                                 | None => ∅
                                 end)
  ∧ socketId ∉ partners (removeUser socketId s).
Proof.
  intros Hs%reachable_consistent. split.
  - by apply sessions_removeUser.
  - by apply partners_removeUser.
Qed.

(** ** [start-search] and [next] *)

Lemma sessions_enqueue socket s :
  sessions (enqueue socket s) = {[id socket]} ∪ sessions s.
Proof.
  unfold sessions, enqueue; simpl.
  rewrite fmap_app, list_to_set_app_L. simpl. set_solver.
Qed.

Lemma sessions_on_start_search socket s :
  sessions (on_start_search socket s)
  = {[id socket]} ∪ sessions (removeUser (id socket) s).
Proof.
  unfold on_start_search, pairUsers. rewrite sessions_pairUsers_loop by done.
  by rewrite <- sessions_enqueue.
Qed.

(** X7.  After [start-search] or [next] the session takes part in the
    matchmaking, waiting or paired, in any state; apart from it the
    sessions that take part are those that [removeUser] left. *)
Theorem start_search_joins (socket : Socket) (s : State) :
  id socket ∈ sessions (on_start_search socket s)
  ∧ sessions (on_start_search socket s)
    = {[id socket]} ∪ sessions (removeUser (id socket) s)
  ∧ sessions (on_next socket s)
    = {[id socket]} ∪ sessions (removeUser (id socket) s).
Proof.
  split_and!; [|apply sessions_on_start_search..].
  rewrite sessions_on_start_search. set_solver.
Qed.

Lemma on_start_search_alone socket s :
  waitingQueue (removeUser (id socket) s) = [] →
  on_start_search socket s
  = emit (SocketEmit (id socket) "searching" None)
      (enqueue socket (removeUser (id socket) s)).
Proof.
  intros Hq. unfold on_start_search, pairUsers.
  apply pairUsers_loop_short. simpl. rewrite Hq. simpl. lia.
Qed.

Lemma on_start_search_match socket other s :
  waitingQueue (removeUser (id socket) s) = [other] →
  let s' := on_start_search socket s in
  waitingQueue s' = []
  ∧ activePairs s'
    = insert_pair (id other) (id socket) (activePairs (removeUser (id socket) s))
  ∧ emitted s'
    = emitted (removeUser (id socket) s)
      ++ [SocketEmit (id socket) "searching" None;
          SocketEmit (id other) "paired" (paired_payload socket);
          SocketEmit (id socket) "paired" (paired_payload other)].
Proof.
  intros Hq s'. subst s'. unfold on_start_search, pairUsers.
  cbn [waitingQueue emit enqueue set_waitingQueue]. rewrite Hq. simpl.
  split_and!; [done..|]. by rewrite <- !app_assoc.
Qed.

(** The queue that [removeUser] leaves at an observation point when another
    session waits. *)
Lemma removeUser_other_waiting socket other s :
  reachable s → other ∈ waitingQueue s → id other ≠ id socket →
  waitingQueue (removeUser (id socket) s) = [other].
Proof.
  intros Hs Hin Hne. apply reachable_short in Hs.
  rewrite removeUser_waitingQueue.
  destruct (waitingQueue s) as [|user [|user' rest]]; simpl in Hs; [|  |lia].
  - by apply elem_of_nil in Hin.
  - apply list_elem_of_singleton in Hin as ->.
    by rewrite filter_cons_True.
Qed.

(** X8.  When another session waits at an observation point, [start-search]
    (and [next], which runs the same statements) pairs the requesting
    session with it at once: nobody is left waiting, each of the two is the
    other's partner, and after the notifications of [removeUser] the
    handler emits [searching] to the requester, then [paired] to the waiting
    session and [paired] to the requester, each with the other's
    identifier. *)
Theorem start_search_pairs_with_waiting (socket other : Socket) (s : State) :
  reachable s → other ∈ waitingQueue s → id other ≠ id socket →
  let s' := on_start_search socket s in
  on_next socket s = s'
  ∧ waitingQueue s' = []
  ∧ get_partner (id socket) (activePairs s') = Some (id other)
  ∧ get_partner (id other) (activePairs s') = Some (id socket)
  ∧ emitted s'
    = emitted (removeUser (id socket) s)
      ++ [SocketEmit (id socket) "searching" None;
          SocketEmit (id other) "paired"
            (Some (VObj [("partnerId", VStr (id socket))]));
          SocketEmit (id socket) "paired"
            (Some (VObj [("partnerId", VStr (id other))]))].
Proof.
  intros Hs Hin Hne s'.
  pose proof (removeUser_other_waiting socket other s Hs Hin Hne) as Hq.
  destruct (on_start_search_match socket other s Hq) as (Hq' & Hm' & He').
  fold s' in Hq', Hm', He'. unfold get_partner.
  split_and!; [done|done| | |done]; rewrite Hm', insert_pair_lookup by done.
  - rewrite decide_False by done. by rewrite decide_True.
  - by rewrite decide_True.
Qed.

(** X9.  When no other session waits, [start-search] (and [next]) leaves
    the requesting session alone in the queue, unpaired, and emits only
    [searching] after the notifications of [removeUser]; this holds in any
    state. *)
Theorem start_search_waits_alone (socket : Socket) (s : State) :
  (∀ user, user ∈ waitingQueue s → id user = id socket) →
  let s' := on_start_search socket s in
  on_next socket s = s'
  ∧ waitingQueue s' = [socket]
  ∧ get_partner (id socket) (activePairs s') = None
  ∧ activePairs s' = activePairs (removeUser (id socket) s)
  ∧ emitted s'
    = emitted (removeUser (id socket) s)
      ++ [SocketEmit (id socket) "searching" None].
Proof.
  intros Hall s'.
  assert (waitingQueue (removeUser (id socket) s) = []) as Hq.
  { rewrite removeUser_waitingQueue.
    destruct (filter _ _) as [|user rest] eqn:E; [done|].
    assert (user ∈ filter (λ user, id user ≠ id socket) (waitingQueue s))
      as [Hne Hin]%list_elem_of_filter by (rewrite E; left).
    by apply Hall in Hin. }
  split; [done|]. subst s'. rewrite on_start_search_alone by done.
  unfold get_partner, emit, enqueue, set_waitingQueue.
  cbn [waitingQueue activePairs emitted]. rewrite Hq.
  split_and!; [done| |done|done]. apply removeUser_lookup_self.
Qed.

(** X10.  After [next] from a paired session at an observation point the
    former partner is idle, neither waiting nor paired, and the session is
    not paired with it again. *)
Theorem next_releases_partner (socket : Socket) (partnerId : string) (s : State) :
  reachable s →
  get_partner (id socket) (activePairs s) = Some partnerId →
  (partnerId ∉ sessions (on_next socket s))
  ∧ get_partner partnerId (activePairs (on_next socket s)) = None
  ∧ get_partner (id socket) (activePairs (on_next socket s)) ≠ Some partnerId.
Proof.
  unfold get_partner. intros Hs Hp.
  pose proof (reachable_consistent s Hs) as Hc.
  assert (partnerId ≠ id socket) as Hne.
  { destruct Hc as [_ _ _ Hirr _]. intros ->. by eapply Hirr. }
  assert (partnerId ∉ sessions (on_next socket s)) as Hout.
  { change (on_next socket s) with (on_start_search socket s).
    rewrite sessions_on_start_search, sessions_removeUser, Hp by done.
    set_solver. }
  assert (activePairs (on_next socket s) !! partnerId = None) as Hgone.
  { destruct (activePairs (on_next socket s) !! partnerId) eqn:E; [|done].
    exfalso. apply Hout, elem_of_sessions. right. eauto. }
  split_and!; [done..|]. intros Hagain.
  assert (consistent (on_next socket s)) as [_ _ Hsym _ _].
  { apply (consistent_exec (Next socket)), Hc. }
  apply Hsym in Hagain. congruence.
Qed.

(** X11.  At every observation point nobody is paired with itself, and the
    sessions named as partners are exactly the paired sessions. *)
Theorem partners_are_paired (s : State) :
  reachable s →
  (∀ a, get_partner a (activePairs s) ≠ Some a)
  ∧ partners s = dom (activePairs s).
Proof.
  intros [_ _ Hsym Hirr _]%reachable_consistent. split; [done|].
  apply set_eq. intros x. unfold partners.
  rewrite elem_of_map_img, elem_of_dom. split.
  - intros (k & Hk). apply Hsym in Hk. eauto.
  - intros (k & Hk). apply Hsym in Hk. eauto.
Qed.

(** ** Runs under the transport library: who is connected *)

(** X12.  In a run under the transport library every session that waits, is
    paired or is named as a partner is a connected socket, and no
    identifier in use is the empty string: a session that disconnects is
    taken out of both structures by its [disconnect] handler. *)
Theorem live_sessions_connected (s : State) :
  live s →
  sessions s ⊆ sockets s
  ∧ partners s ⊆ sockets s
  ∧ "" ∉ sessions s ∪ partners s.
Proof.
  intros Hlive.
  pose proof (live_registered s Hlive) as [Hne Hq Hp].
  pose proof (reachable_consistent s (live_reachable s Hlive))
    as [_ _ Hsym _ _].
  assert (sessions s ⊆ sockets s) as Hs.
  { intros x [(user & -> & Hin)%list_elem_of_fmap|[y Hy]]%elem_of_sessions;
      [by apply Hq|by eapply Hp]. }
  assert (partners s ⊆ sockets s) as Hpart.
  { intros x (k & Hk)%elem_of_map_img. apply Hsym in Hk. by eapply Hp. }
  split_and!; [done..|]. intros [Hin|Hin]%elem_of_union; auto.
Qed.

(** X13.  In a run under the transport library, when a connected session
    disconnects, its partner, if it has one, is still connected and is sent
    exactly one [partner-disconnected]; nothing else is emitted.  Afterwards
    the session is gone from the map of sockets and from the matchmaking,
    and the former partner is idle. *)
Theorem disconnect_notifies_partner (socket : Socket) (s : State) :
  live s → id socket ∈ sockets s →
  let s' := (exec (Disconnect socket) s).1 in
  emitted s'
  = emitted s ++ match get_partner (id socket) (activePairs s) with
                 | Some partnerId =>
                     [SocketEmit partnerId "partner-disconnected" None]
                 | None => []
                 end
  ∧ (id socket ∉ sockets s' ∪ sessions s' ∪ partners s')
  ∧ (∀ partnerId, get_partner (id socket) (activePairs s) = Some partnerId →
                  partnerId ∈ sockets s' ∧ partnerId ∉ sessions s').
Proof.
  intros Hlive Hin s'. unfold get_partner.
  pose proof (reachable_consistent s (live_reachable s Hlive)) as Hc.
  pose proof (live_registered s Hlive) as [_ _ Hreg].
  set (s0 := set_sockets (sockets s ∖ {[id socket]}) s).
  assert (consistent s0) as Hc0 by by apply (consistent_frame s).
  assert (s' = removeUser (id socket) s0) as Hs' by done.
  assert (sessions s' = sessions s ∖ ({[id socket]}
            ∪ match activePairs s !! id socket with
              | Some partnerId => {[partnerId]}
              | None => ∅
              end)) as Hsess.
  { rewrite Hs', sessions_removeUser by done. done. }
  assert (sockets s' = sockets s ∖ {[id socket]}) as Hsock
    by (rewrite Hs'; apply removeUser_sockets).
  split_and!.
  - rewrite Hs', removeUser_emitted. f_equal. unfold farewell.
    change (activePairs s0) with (activePairs s).
    destruct (activePairs s !! id socket) as [partnerId|] eqn:E; [|done].
    rewrite decide_True; [done|]. simpl.
    destruct Hc as [_ _ Hsym Hirr _].
    apply elem_of_difference. split.
    + apply Hsym in E. by eapply Hreg.
    + intros Heq%elem_of_singleton. subst. by eapply Hirr.
  - pose proof (partners_removeUser (id socket) s0 Hc0) as Hpart.
    rewrite <- Hs' in Hpart. rewrite Hsess, Hsock. set_solver.
  - intros partnerId Hp. rewrite Hsess, Hsock, Hp.
    destruct Hc as [_ _ Hsym Hirr _]. split; [|set_solver].
    apply elem_of_difference. split.
    + apply Hsym in Hp. by eapply Hreg.
    + intros Heq%elem_of_singleton. subst. by eapply Hirr.
Qed.

(** ** The relay handlers *)

Lemma get_prop_nullish data key :
  get_prop data key = None ↔ nullish data = true.
Proof. by destruct data. Qed.

Lemma relay_negotiation_completion event field socket data s :
  (relay_negotiation event field socket data s).2
  = if has_truthy_partner socket s && nullish data then TypeError else Normal.
Proof.
  unfold relay_negotiation, has_truthy_partner.
  destruct (get_partner _ _) as [partnerId|]; [|done].
  destruct (truthy partnerId); [|done]. by destruct data.
Qed.

Lemma on_chat_message_completion now socket data s :
  (on_chat_message now socket data s).2
  = if has_truthy_partner socket s && nullish data then TypeError else Normal.
Proof.
  unfold on_chat_message, has_truthy_partner.
  destruct (get_partner _ _) as [partnerId|]; [|done].
  destruct (truthy partnerId); [|done]. by destruct data.
Qed.

Lemma relay_negotiation_nullish event field socket data s :
  nullish data = true → (relay_negotiation event field socket data s).1 = s.
Proof.
  intros Hn%(get_prop_nullish _ field). unfold relay_negotiation.
  rewrite Hn. by repeat case_match.
Qed.

Lemma on_chat_message_nullish now socket data s :
  nullish data = true → (on_chat_message now socket data s).1 = s.
Proof.
  intros Hn%(get_prop_nullish _ "message"). unfold on_chat_message.
  rewrite Hn. by repeat case_match.
Qed.

(** X14.  A relay handler throws exactly when the sender passes the guard
    [if (partnerId)] and the inbound payload is [undefined] or [null]; on
    every other input it returns normally.  On an [undefined] or [null]
    payload nothing is emitted and the state stays as it is, whether the
    handler throws or not. *)
Theorem relay_throws_iff (s : State) (socket : Socket) (data : JSValue) (now : Z) :
  Forall (λ handler : Socket → JSValue → State → State * Completion,
            (handler socket data s).2
            = (if has_truthy_partner socket s && nullish data
               then TypeError else Normal)
            ∧ (nullish data = true → (handler socket data s).1 = s))
         [on_offer; on_answer; on_ice_candidate; on_chat_message now].
Proof.
  repeat apply Forall_cons_2; [..|apply Forall_nil_2]; split;
    first [apply relay_negotiation_completion
          |apply relay_negotiation_nullish
          |apply on_chat_message_completion
          |apply on_chat_message_nullish].
Qed.

Lemma relay_negotiation_emitted event field socket data s :
  let s' := (relay_negotiation event field socket data s).1 in
  sockets s' = sockets s
  ∧ (emitted s' = emitted s
     ∨ ∃ partnerId payload,
         get_partner (id socket) (activePairs s) = Some partnerId
         ∧ emitted s' = emitted s ++ [RoomEmit partnerId event (Some payload)]).
Proof.
  unfold relay_negotiation.
  destruct (get_partner _ _) as [partnerId|]; [|by split; [|left]].
  destruct (truthy partnerId); [|by split; [|left]].
  destruct (get_prop data field) as [value|]; [|by split; [|left]].
  split; [done|]. right. by eexists _, _.
Qed.

Lemma on_chat_message_emitted now socket data s :
  let s' := (on_chat_message now socket data s).1 in
  sockets s' = sockets s
  ∧ (emitted s' = emitted s
     ∨ ∃ partnerId payload,
         get_partner (id socket) (activePairs s) = Some partnerId
         ∧ emitted s'
           = emitted s ++ [RoomEmit partnerId "chat-message" (Some payload)]).
Proof.
  unfold on_chat_message.
  destruct (get_partner _ _) as [partnerId|]; [|by split; [|left]].
  destruct (truthy partnerId); [|by split; [|left]].
  destruct (get_prop data "message") as [value|]; [|by split; [|left]].
  split; [done|]. right. by eexists _, _.
Qed.

Lemma reachable_partner_other s socketId partnerId :
  reachable s →
  get_partner socketId (activePairs s) = Some partnerId →
  partnerId ≠ socketId ∧ partnerId ∉ id <$> waitingQueue s.
Proof.
  intros [_ Hdis Hsym Hirr _]%reachable_consistent Hp. unfold get_partner in Hp.
  split.
  - intros ->. by eapply Hirr.
  - intros (user & -> & Hin)%list_elem_of_fmap.
    apply Hdis in Hin. apply Hsym in Hp. congruence.
Qed.

(** X15.  At every observation point and for any payload a relay handler
    emits at most one event, under its own event name and to one room only:
    the room of the session that the table holds as the sender's partner.
    That session is not the sender and is not waiting; so the handler never
    emits to the sender, nor to a session other than the partner.  The
    handler does not touch the map of sockets. *)
Theorem relay_only_to_partner (s : State) (socket : Socket) (data : JSValue)
    (now : Z) :
  reachable s →
  Forall (λ '(handler, event),
            let s' := (handler socket data s).1 in
            sockets s' = sockets s
            ∧ (emitted s' = emitted s
               ∨ ∃ partnerId payload,
                   get_partner (id socket) (activePairs s) = Some partnerId
                   ∧ partnerId ≠ id socket
                   ∧ (partnerId ∉ id <$> waitingQueue s)
                   ∧ emitted s'
                     = emitted s ++ [RoomEmit partnerId event (Some payload)]))
         [(on_offer, "offer"); (on_answer, "answer");
          (on_ice_candidate, "ice-candidate");
          (on_chat_message now, "chat-message")].
Proof.
  intros Hs.
  assert (∀ s' event,
    sockets s' = sockets s
    ∧ (emitted s' = emitted s
       ∨ ∃ partnerId payload,
           get_partner (id socket) (activePairs s) = Some partnerId
           ∧ emitted s' = emitted s ++ [RoomEmit partnerId event (Some payload)])
    → sockets s' = sockets s
      ∧ (emitted s' = emitted s
         ∨ ∃ partnerId payload,
             get_partner (id socket) (activePairs s) = Some partnerId
             ∧ partnerId ≠ id socket
             ∧ (partnerId ∉ id <$> waitingQueue s)
             ∧ emitted s'
               = emitted s ++ [RoomEmit partnerId event (Some payload)]))
    as Hother.
  { intros s' event [Hsock [Hsame|(partnerId & payload & Hp & He)]];
      (split; [done|]); [by left|right].
    destruct (reachable_partner_other s _ _ Hs Hp) as [Hne Hidle].
    by exists partnerId, payload. }
  repeat apply Forall_cons_2; [..|apply Forall_nil_2]; apply Hother;
    first [apply relay_negotiation_emitted|apply on_chat_message_emitted].
Qed.

(** ** The health check route *)

Lemma size_sessions s :
  consistent s →
  size (sessions s) = length (waitingQueue s) + size (activePairs s).
Proof.
  intros [Hnd Hdis _ _ _]. unfold sessions.
  rewrite size_union.
  - by rewrite size_list_to_set, length_fmap, size_dom.
  - intros x (user & -> & Hin)%elem_of_list_to_set%list_elem_of_fmap
             [y Hy]%elem_of_dom.
    apply Hdis in Hin. congruence.
Qed.

(** X16.  At every observation point the [users] object of [GET /status]
    reports whole numbers that account for every session in the
    matchmaking: [active] is the number [k] of pairs, with [2 * k] entries in
    the table, [waiting] is 0 or 1, and [waiting + 2 * k] sessions wait or
    are paired. *)
Theorem status_counts (now_iso : string) (s : State) :
  reachable s →
  let body := get_status now_iso s in
  status body = "online"
  ∧ timestamp body = now_iso
  ∧ (waiting (users body) ≤ 1)%nat
  ∧ ∃ k : nat,
      size (activePairs s) = 2 * k
      ∧ QArith_base.Qeq (active (users body)) (QArith_base.inject_Z (Z.of_nat k))
      ∧ size (sessions s) = waiting (users body) + 2 * k.
Proof.
  intros Hs body.
  pose proof (reachable_short s Hs) as Hshort.
  pose proof (reachable_consistent s Hs) as Hc.
  pose proof (size_sessions s Hc) as Hsize.
  destruct Hc as [_ _ _ _ [k Hk]].
  split_and!; [done|done|simpl; lia|]. exists k. split_and!.
  - done.
  - unfold QArith_base.Qeq; simpl. rewrite Hk. lia.
  - simpl. lia.
Qed.

(** * The further properties on sample runs *)

Lemma at_most_one_waiting_witness :
  reachable run_three ∧ (length (waitingQueue run_three) ≤ 1)%nat.
Proof.
  split; [apply reachable_run_three|].
  apply (at_most_one_waiting run_three), reachable_run_three.
Defined.

Lemma pairUsers_fixed_point_witness :
  length (waitingQueue run_three) < 2 ∧ pairUsers run_three = run_three.
Proof.
  assert (length (waitingQueue run_three) < 2) as Hshort by (vm_compute; lia).
  split; [done|].
  by apply (pairUsers_fixed_point run_three).
Defined.

Lemma removeUser_absent_noop_witness :
  ("C" ∉ sessions run_paired) ∧ removeUser "C" run_paired = run_paired.
Proof.
  assert ("C" ∉ sessions run_paired) as Hout
    by (apply (bool_decide_unpack _); by vm_compute).
  split; [done|]. by apply (removeUser_absent_noop "C" run_paired).
Defined.

Lemma removeUser_removes_exactly_witness :
  reachable run_three
  ∧ sessions run_three = {["A"; "B"; "C"]}
  ∧ sessions (removeUser "A" run_three) = {["C"]}.
Proof.
  destruct (removeUser_removes_exactly "A" run_three reachable_run_three)
    as [Hsessions _].
  split_and!; [apply reachable_run_three|by vm_compute|].
  rewrite Hsessions. by vm_compute.
Defined.

Lemma start_search_pairs_with_waiting_witness :
  reachable run_three ∧ carol ∈ waitingQueue run_three ∧ id carol ≠ id alice
  ∧ waitingQueue (on_start_search alice run_three) = []
  ∧ get_partner "A" (activePairs (on_start_search alice run_three)) = Some "C".
Proof.
  assert (carol ∈ waitingQueue run_three) as Hin by (vm_compute; left).
  assert (id carol ≠ id alice) as Hne by discriminate.
  destruct (start_search_pairs_with_waiting alice carol run_three
              reachable_run_three Hin Hne) as (_ & Hq & Hp & _).
  split_and!; [apply reachable_run_three|done..].
Defined.

Lemma start_search_waits_alone_witness :
  (∀ user, user ∈ waitingQueue run_three → id user = id carol)
  ∧ waitingQueue (on_start_search carol run_three) = [carol].
Proof.
  assert (∀ user, user ∈ waitingQueue run_three → id user = id carol) as Hall.
  { intros user Hin. change (waitingQueue run_three) with [carol] in Hin.
    by apply list_elem_of_singleton in Hin as ->. }
  split; [done|].
  by destruct (start_search_waits_alone carol run_three Hall) as (_ & Hq & _).
Defined.

Lemma next_releases_partner_witness :
  reachable run_three
  ∧ get_partner (id alice) (activePairs run_three) = Some "B"
  ∧ get_partner "B" (activePairs (on_next alice run_three)) = None.
Proof.
  assert (get_partner (id alice) (activePairs run_three) = Some "B") as Hp
    by reflexivity.
  destruct (next_releases_partner alice "B" run_three reachable_run_three Hp)
    as (_ & Hgone & _).
  split_and!; [apply reachable_run_three|done..].
Defined.

Lemma partners_are_paired_witness :
  reachable run_three ∧ partners run_three = dom (activePairs run_three).
Proof.
  split; [apply reachable_run_three|].
  by destruct (partners_are_paired run_three reachable_run_three) as [_ Heq].
Defined.

Lemma live_sessions_connected_witness :
  live run_paired ∧ sessions run_paired ⊆ sockets run_paired.
Proof.
  split; [apply live_run_paired|].
  by destruct (live_sessions_connected run_paired live_run_paired) as [Hsub _].
Defined.

Lemma disconnect_notifies_partner_witness :
  live run_paired ∧ id bob ∈ sockets run_paired
  ∧ emitted (exec (Disconnect bob) run_paired).1
    = emitted run_paired ++ [SocketEmit "A" "partner-disconnected" None].
Proof.
  assert (id bob ∈ sockets run_paired) as Hin
    by (apply (bool_decide_unpack _); by vm_compute).
  destruct (disconnect_notifies_partner bob run_paired live_run_paired Hin)
    as (Hemitted & _).
  split_and!; [apply live_run_paired|done|]. by rewrite Hemitted.
Defined.

Lemma relay_throws_iff_witness :
  nullish VUndefined = true
  ∧ on_offer alice VUndefined run_paired = (run_paired, TypeError).
Proof.
  assert (nullish VUndefined = true) as Hn by reflexivity.
  pose proof (relay_throws_iff run_paired alice VUndefined 0) as Hall.
  apply Forall_cons_1 in Hall as [[Hcompletion Hstate] _].
  split; [done|].
  rewrite (surjective_pairing (on_offer alice VUndefined run_paired)).
  by rewrite Hcompletion, (Hstate Hn).
Defined.

Lemma status_counts_witness :
  reachable run_three
  ∧ waiting (users (get_status "2024-01-01T00:00:00.000Z" run_three)) = 1
  ∧ QArith_base.Qeq
      (active (users (get_status "2024-01-01T00:00:00.000Z" run_three)))
      (QArith_base.inject_Z 1).
Proof.
  destruct (status_counts "2024-01-01T00:00:00.000Z" run_three
              reachable_run_three) as (_ & _ & _ & k & Hk & Hactive & _).
  split_and!; [apply reachable_run_three|done|].
  assert (size (activePairs run_three) = 2) as Hsize by by vm_compute.
  assert (k = 1) as -> by lia. done.
Defined.

Lemma relay_only_to_partner_witness :
  reachable run_three
  ∧ ∀ room event payload,
      emitted (on_offer alice (VObj [("offer", VStr "sdp1")]) run_three).1
      = emitted run_three ++ [RoomEmit room event payload] →
      room = "B" ∧ event = "offer".
Proof.
  split; [apply reachable_run_three|]. intros room event payload Hemitted.
  pose proof (relay_only_to_partner run_three alice
                (VObj [("offer", VStr "sdp1")]) 0 reachable_run_three) as Hall.
  apply Forall_cons_1 in Hall as [[_ Hone] _].
  destruct Hone as [Hsame|(partnerId & payload' & Hp & _ & _ & Hone)].
  - rewrite Hsame in Hemitted.
    apply (f_equal length) in Hemitted. rewrite length_app in Hemitted.
    simpl in Hemitted. lia.
  - rewrite Hone in Hemitted. apply app_inv_head in Hemitted.
    injection Hemitted as <- <- _. split; [|done].
    change (get_partner (id alice) (activePairs run_three)) with (Some "B") in Hp.
    by injection Hp as <-.
Defined.
